(** * Sorting helpers of the context view

    A shallow embedding of
    [src/core_plugins/kibana/public/context/api/utils/sorting.js]:
    [getFirstSortableField], [reverseSortDirective] and
    [reverseSortDirection], followed by the properties the specification
    states about them.

    JavaScript data is embedded as the inductive type [value]: the
    primitives, arrays, and plain objects as finite maps from property
    names to values (own enumerable data properties; like the result of
    [JSON.parse], a plain object has the standard prototype and may own
    any key, [__proto__] included).  Values are finite trees.  The order
    of an object's keys is not represented; the specification declares it
    irrelevant.

    Two features of the run-time are made explicit because the functions
    depend on them.

    - lodash 3 builds the results of [_.assign] and [_.mapValues] by plain
      assignment, [result[key] = value].  For the key [__proto__] that
      assignment reaches the prototype setter: a primitive is ignored,
      so the key is lost, and an object, an array or [null] replaces the
      prototype of the result.  An object with a replaced prototype is
      not a [value]; the helpers, and with them [reverseSortDirection] and
      [reverseSortDirective], return [None] in that case and [Some] of the
      resulting value in every other case.
    - [reverseSortDirection] calls itself once per plain object nested
      under [order].  Besides the structural definition, the function is
      written call by call with a budget of nested calls, which stands
      for the depth of call stack the engine grants. *)

From stdpp Require Import gmap strings list fin_maps.

Set Warnings "-register-all".

(* ===================================================================== *)
(** * JavaScript values and the lodash helpers the module calls *)
(* ===================================================================== *)

Inductive value : Type :=
| VUndefined
| VNull
| VBool (b : bool)
| VNum (n : Z)
| VStr (s : string)
| VArr (elems : list value)
| VObj (props : gmap string value).

(** [_.isString(v)]. *)
Definition isString (v : value) : bool :=
  match v with VStr _ => true | _ => false end.

(** [_.isPlainObject(v)]: arrays and [null] are not plain objects. *)
Definition isPlainObject (v : value) : bool :=
  match v with VObj _ => true | _ => false end.

(** [v === 'lit']: strict equality with a string literal holds for that
    very string and for nothing else. *)
Definition strictEqualsString (v : value) (lit : string) : bool :=
  match v with VStr s => bool_decide (s = lit) | _ => false end.

(** The own properties of a value that is a plain object. *)
Definition ownProps (v : value) : gmap string value :=
  match v with VObj o => o | _ => ∅ end.

(** [o.key] on a plain object: the property's value, or [undefined] when
    the object has no such property. *)
Definition getProp (v : value) (key : string) : value :=
  default VUndefined (ownProps v !! key).

(** What the setter of [__proto__] accepts as a prototype: an object (a
    plain object, an array) or [null]. *)
Definition replacesPrototype (v : value) : bool :=
  match v with VNull | VArr _ | VObj _ => true | _ => false end.

(** [result[key] = val] on an object that still has the standard
    prototype.  Every key but [__proto__] becomes an own property.  The
    key [__proto__] goes to the setter inherited from the standard
    prototype: it ignores a primitive and leaves [result] as it is, and
    it replaces the prototype by an object or [null] ([None]). *)
Definition setProp (key : string) (val : value)
    (result : gmap string value) : option (gmap string value) :=
  if bool_decide (key = "__proto__") then
    if replacesPrototype val then None else Some result
  else Some (<[key := val]> result).

(** The copy loop of lodash 3 ([baseCopy]): for each own key of [source],
    [result[key] = source[key]]. *)
Definition copyProps (source result : gmap string value)
    : option (gmap string value) :=
  map_fold (λ key val acc, acc ≫= setProp key val) (Some result) source.

(** [_.assign(target, ...sources)]: the sources are copied into the target
    from left to right, a later source overwriting an earlier one. *)
Definition assign (target : gmap string value)
    (sources : list (gmap string value)) : option (gmap string value) :=
  foldl (λ acc source, acc ≫= copyProps source) (Some target) sources.

(** [_.mapValues(o, f)]: starting from [{}], for each own key of [o],
    [result[key] = f(o[key])]. *)
Definition mapValues (f : value → option value) (o : gmap string value)
    : option (gmap string value) :=
  map_fold (λ key val acc,
              result ← acc; mapped ← f val; setProp key mapped result)
           (Some ∅) o.

(* ===================================================================== *)
(** * getFirstSortableField *)
(* ===================================================================== *)

(** The list of field names that are allowed for sorting, but not included
    in index pattern fields. *)
Definition META_FIELD_NAMES : list string := ["_seq_no"; "_doc"; "_uid"].

(** A field of an index pattern; only its [sortable] flag is read. *)
Record Field : Type := { sortable : bool }.

(** An index pattern, reduced to [indexPattern.fields.byName]. *)
Record IndexPattern : Type := { byName : gmap string Field }.

(** [META_FIELD_NAMES.includes(fieldName)]. *)
Definition includes (names : list string) (fieldName : string) : bool :=
  bool_decide (fieldName ∈ names).

(** [entry || fallback]: a field object is truthy, a missing entry
    ([undefined]) is falsy. *)
Definition orElse (entry : option Field) (fallback : Field) : Field :=
  default fallback entry.

(** [xs[0]]: the first element, [undefined] on the empty array. *)
Definition firstElement (xs : list string) : value :=
  match xs with
  | [] => VUndefined
  | x :: _ => VStr x
  end.

(** The arrow function handed to [fieldNames.filter]. *)
Definition isSortableName (indexPattern : IndexPattern)
    (fieldName : string) : bool :=
  includes META_FIELD_NAMES fieldName
  || sortable (orElse (byName indexPattern !! fieldName)
                      {| sortable := false |}).

Definition getFirstSortableField (indexPattern : IndexPattern)
    (fieldNames : list string) : value :=
  let sortableFields :=
    List.filter (isSortableName indexPattern) fieldNames in
  firstElement sortableFields.


(* ===================================================================== *)
(** * reverseSortDirective and reverseSortDirection *)
(* ===================================================================== *)

(** The [else] branch of [reverseSortDirection]:
    [sortDirection === 'asc' ? 'desc' : 'asc']. *)
Definition reverseToken (sortDirection : value) : value :=
  if strictEqualsString sortDirection "asc" then VStr "desc" else VStr "asc".

(** [reverseSortDirection].  The recursive call on [sortDirection.order]
    is taken from the image of the object under the function, which keeps
    the recursion structural; a missing [order] reads as [undefined], which
    the call sends through the [else] branch.  The result is [None] when
    the copy made by [_.assign], or the reversal it stores under [order],
    has its prototype replaced.
    [reverseSortDirection_unfold] below restates the definition in the
    shape of the source. *)
Fixpoint reverseSortDirection (sortDirection : value) : option value :=
  match sortDirection with
  | VObj o =>
      order ← default (Some (reverseToken VUndefined))
                ((reverseSortDirection <$> o) !! "order");
      VObj <$> assign ∅ [o; {[ "order" := order ]}]
  | _ => Some (reverseToken sortDirection)
  end.

(** The same function written call by call, as the source has it, with a
    budget of nested calls: the outer [None] when [fuel] nested calls do
    not suffice (the engine's call stack is exhausted), otherwise [Some]
    of what the calls return. *)
Fixpoint reverseSortDirectionFuel (fuel : nat) (sortDirection : value)
    : option (option value) :=
  match fuel with
  | 0 => None
  | S fuel' =>
      if isPlainObject sortDirection then
        returned ← reverseSortDirectionFuel fuel'
                     (getProp sortDirection "order");
        Some (order ← returned;
              VObj <$> assign ∅ [ownProps sortDirection;
                                 {[ "order" := order ]}])
      else
        Some (Some (if strictEqualsString sortDirection "asc"
                    then VStr "desc" else VStr "asc"))
  end.

(** How many plain objects are nested under [order] keys, the value itself
    included. *)
Fixpoint orderDepth (v : value) : nat :=
  match v with
  | VObj o => S (default 0 ((orderDepth <$> o) !! "order"))
  | _ => 0
  end.

(** [reverseSortDirective].  The object literal with a computed key
    defines an own property whatever the key; [_.mapValues] assigns. *)
Definition reverseSortDirective (sortDirective : value) : option value :=
  match sortDirective with
  | VStr s =>
      Some (VObj {[ s := if bool_decide (s = "_score") then VStr "asc"
                         else VStr "desc" ]})
  | VObj o => VObj <$> mapValues reverseSortDirection o
  | _ => Some sortDirective
  end.

(* ===================================================================== *)
(** * Vocabulary of the specification *)
(* ===================================================================== *)

(** A candidate qualifies when it is a meta field or when the schema has
    an entry for it whose sortable flag is set. *)
Definition qualifies (indexPattern : IndexPattern) (name : string) : Prop :=
  name ∈ META_FIELD_NAMES
  ∨ ∃ field, byName indexPattern !! name = Some field
             ∧ sortable field = true.

(** The two plain direction tokens. *)
Definition plainDirection (v : value) : Prop :=
  v = VStr "asc" ∨ v = VStr "desc".

(** A direction value is well formed when it is one of the two tokens,
    or a plain object whose [order] is present and well formed in turn
    (the [SortDirection] and [SortOptions] of the source's type
    comments, the latter at any depth). *)
Fixpoint validDirection (v : value) : bool :=
  match v with
  | VStr s => bool_decide (s = "asc") || bool_decide (s = "desc")
  | VObj o => default false ((validDirection <$> o) !! "order")
  | _ => false
  end.

(** No plain object on the chain [v], [v.order], [v.order.order], ... owns
    a [__proto__] key. *)
Fixpoint protoFreeChain (v : value) : bool :=
  match v with
  | VObj o =>
      match o !! "__proto__" with
      | None => default true ((protoFreeChain <$> o) !! "order")
      | Some _ => false
      end
  | _ => true
  end.

(** The copy loop leaves the standard prototype of its result in place
    when the source has no own [__proto__] key, or one that holds a
    primitive. *)
Definition keepsPrototype (o : gmap string value) : bool :=
  match o !! "__proto__" with
  | Some val => negb (replacesPrototype val)
  | None => true
  end.

(** What [_.mapValues] has built after visiting the keys of [m]. *)
Definition mapValuesResult (f : value → option value)
    (m : gmap string value) (acc : option (gmap string value)) : Prop :=
  match acc with
  | Some result =>
      (∀ key val, m !! key = Some val → is_Some (f val))
      ∧ (∀ val mapped, m !! "__proto__" = Some val → f val = Some mapped →
           replacesPrototype mapped = false)
      ∧ result !! "__proto__" = None
      ∧ (∀ key, key ≠ "__proto__" → result !! key = m !! key ≫= f)
  | None =>
      ∃ key val, m !! key = Some val
        ∧ (f val = None
           ∨ key = "__proto__"
             ∧ ∃ mapped, f val = Some mapped
                         ∧ replacesPrototype mapped = true)
  end.

(** Applying [reverseSortDirective], respectively [reverseSortDirection],
    twice. *)
Definition reverseSortDirectiveTwice (v : value) : option value :=
  reverseSortDirective v ≫= reverseSortDirective.

Definition reverseSortDirectionTwice (v : value) : option value :=
  reverseSortDirection v ≫= reverseSortDirection.


(** The schema of the specification's example: [a] is not sortable, [b]
    is. *)
Definition exampleSchema : IndexPattern :=
  {| byName := {[ "a" := {| sortable := false |};
                  "b" := {| sortable := true |} ]} |}.

(* ===================================================================== *)
(** * getFirstSortableField: the first qualifying candidate *)
(* ===================================================================== *)

Section FirstSortable.
Variable indexPattern : IndexPattern.

Lemma includes_true names name :
  includes names name = true ↔ name ∈ names.
Proof. unfold includes. apply bool_decide_eq_true. Qed.

(** The callback decides [qualifies]. *)
Lemma isSortableName_qualifies name :
  isSortableName indexPattern name = true ↔ qualifies indexPattern name.
Proof.
  unfold isSortableName, qualifies, orElse.
  rewrite orb_true_iff, includes_true.
  split; intros [Hmeta | Hentry]; auto; right.
  - destruct (byName indexPattern !! name) as [field |] eqn:Hlook;
      simpl in Hentry; [eauto | discriminate].
  - destruct Hentry as (field & -> & Hflag). exact Hflag.
Qed.

Lemma isSortableName_not_qualifies name :
  isSortableName indexPattern name = false ↔ ¬ qualifies indexPattern name.
Proof.
  rewrite <- isSortableName_qualifies.
  destruct (isSortableName indexPattern name); split; congruence.
Qed.

(** [firstElement ∘ filter] finds the leftmost element satisfying the test. *)
Lemma first_filter_found (test : string → bool) names name :
  firstElement (List.filter test names) = VStr name ↔
  ∃ before after, names = before ++ name :: after
                  ∧ test name = true
                  ∧ Forall (λ other, test other = false) before.
Proof.
  induction names as [| head rest IH]; simpl.
  - split; [discriminate |].
    intros (before & after & Heq & _). by destruct before.
  - destruct (test head) eqn:Htest; simpl.
    + split.
      * intros [= ->]. exists [], rest. auto.
      * intros (before & after & Heq & Hname & Hbefore).
        destruct before as [| b before]; simpl in Heq.
        -- by injection Heq as -> _.
        -- injection Heq as <- _.
           apply Forall_cons in Hbefore as [Hb _]. congruence.
    + rewrite IH. split.
      * intros (before & after & -> & Hname & Hbefore).
        exists (head :: before), after. auto.
      * intros (before & after & Heq & Hname & Hbefore).
        destruct before as [| b before]; simpl in Heq.
        -- injection Heq as -> _. congruence.
        -- injection Heq as <- ->.
           apply Forall_cons in Hbefore as [_ Hbefore]. eauto.
Qed.

Lemma first_filter_none (test : string → bool) names :
  firstElement (List.filter test names) = VUndefined ↔
  Forall (λ other, test other = false) names.
Proof.
  induction names as [| head rest IH]; simpl.
  - split; auto.
  - destruct (test head) eqn:Htest; simpl.
    + split; [discriminate |].
      intros [Hhead _]%Forall_cons. congruence.
    + rewrite IH. split; [auto |]. by intros [_ Hrest]%Forall_cons.
Qed.

Lemma Forall_not_qualifies names :
  Forall (λ other, isSortableName indexPattern other = false) names ↔
  Forall (λ other, ¬ qualifies indexPattern other) names.
Proof.
  apply Forall_iff. intros other. apply isSortableName_not_qualifies.
Qed.
End FirstSortable.

(** C1.  [getFirstSortableField] returns the first candidate, in sequence
    order, that is a meta field or has a schema entry flagged sortable: it
    returns [name] exactly when [name] qualifies and no candidate before it
    does.  It returns [undefined] exactly when no candidate qualifies, in
    particular on the empty sequence.  With fields [a] (not sortable) and
    [b] (sortable), the candidates [a], [_doc], [b] give [_doc]. *)
Theorem getFirstSortableField_first_qualifying :
  ∀ (indexPattern : IndexPattern) (fieldNames : list string),
    (∀ name,
        getFirstSortableField indexPattern fieldNames = VStr name ↔
        ∃ before after,
          fieldNames = before ++ name :: after
          ∧ qualifies indexPattern name
          ∧ Forall (λ other, ¬ qualifies indexPattern other) before)
    ∧ (getFirstSortableField indexPattern fieldNames = VUndefined ↔
       Forall (λ other, ¬ qualifies indexPattern other) fieldNames)
    ∧ getFirstSortableField indexPattern [] = VUndefined
    ∧ getFirstSortableField exampleSchema ["a"; "_doc"; "b"] = VStr "_doc".
Proof.
  intros indexPattern fieldNames. unfold getFirstSortableField.
  repeat split; try reflexivity.
  - intros Hfound. apply first_filter_found in Hfound
      as (before & after & Heq & Hname & Hbefore).
    exists before, after.
    by rewrite <- isSortableName_qualifies, <- Forall_not_qualifies.
  - intros (before & after & Heq & Hname & Hbefore).
    apply first_filter_found. exists before, after.
    by rewrite isSortableName_qualifies, Forall_not_qualifies.
  - intros Hnone. by apply Forall_not_qualifies, first_filter_none.
  - intros Hnone. by apply first_filter_none, Forall_not_qualifies.
Qed.

(** C6.  Whatever the schema holds, each of the three meta fields
    [_seq_no], [_doc] and [_uid] is selected when it leads the candidates.
    A candidate that is not a meta field and has no schema entry is not
    sortable: it is passed over, the result is that of the remaining
    candidates, and alone it gives [undefined]. *)
Theorem meta_fields_sortable_missing_entries_not :
  ∀ (indexPattern : IndexPattern) (name : string) (rest : list string),
    (name ∈ ["_seq_no"; "_doc"; "_uid"] →
       isSortableName indexPattern name = true
       ∧ getFirstSortableField indexPattern (name :: rest) = VStr name)
    ∧ (name ∉ ["_seq_no"; "_doc"; "_uid"] →
       byName indexPattern !! name = None →
       isSortableName indexPattern name = false
       ∧ getFirstSortableField indexPattern (name :: rest)
         = getFirstSortableField indexPattern rest
       ∧ getFirstSortableField indexPattern [name] = VUndefined).
Proof.
  intros indexPattern name rest. split.
  - intros Hmeta.
    assert (isSortableName indexPattern name = true) as Hsortable.
    { apply isSortableName_qualifies. by left. }
    split; [exact Hsortable |].
    unfold getFirstSortableField. simpl. by rewrite Hsortable.
  - intros Hnot_meta Hmissing.
    assert (isSortableName indexPattern name = false) as Hsortable.
    { apply isSortableName_not_qualifies.
      intros [Hmeta | (field & Hentry & _)]; [done | congruence]. }
    split; [exact Hsortable |].
    unfold getFirstSortableField. simpl. by rewrite Hsortable.
Qed.

(** The meta field [_uid] leads and wins against a schema that marks it
    unsortable; the unknown name [ghost] is passed over. *)
Lemma meta_fields_sortable_missing_entries_not_witness :
  getFirstSortableField
    {| byName := {[ "_uid" := {| sortable := false |} ]} |}
    ["_uid"; "ghost"] = VStr "_uid"
  ∧ getFirstSortableField exampleSchema ["ghost"; "b"]
    = getFirstSortableField exampleSchema ["b"].
Proof.
  split.
  - apply (meta_fields_sortable_missing_entries_not
             {| byName := {[ "_uid" := {| sortable := false |} ]} |}
             "_uid" ["ghost"]).
    unfold META_FIELD_NAMES. set_solver.
  - apply (meta_fields_sortable_missing_entries_not
             exampleSchema "ghost" ["b"]).
    + intros Hin. by repeat (apply elem_of_cons in Hin as [? | Hin]);
        try discriminate; try (by apply elem_of_nil in Hin).
    + reflexivity.
Defined.


(* ===================================================================== *)
(** * getFirstSortableField: candidates and schema entries *)
(* ===================================================================== *)

Lemma firstElement_app (xs ys : list string) :
  firstElement (xs ++ ys) =
    match firstElement xs with
    | VUndefined => firstElement ys
    | found => found
    end.
Proof. destruct xs; reflexivity. Qed.

(** The result depends on the schema only through the verdict of the
    filter on the candidates. *)
Lemma getFirstSortableField_ext (ip1 ip2 : IndexPattern)
    (fieldNames : list string) :
  (∀ name, name ∈ fieldNames →
     isSortableName ip1 name = isSortableName ip2 name) →
  getFirstSortableField ip1 fieldNames = getFirstSortableField ip2 fieldNames.
Proof.
  intros Hsame. unfold getFirstSortableField. cbn zeta. f_equal.
  induction fieldNames as [| head rest IH]; [reflexivity |].
  cbn [List.filter]. rewrite (Hsame head) by apply list_elem_of_here.
  rewrite IH; [reflexivity |].
  intros name Hin. apply Hsame. by apply list_elem_of_further.
Qed.

(** X1.  Over a concatenation of candidate lists, the selection is that
    of the first list when it finds a field, and that of the second list
    otherwise. *)
Theorem getFirstSortableField_app :
  ∀ (indexPattern : IndexPattern) (xs ys : list string),
    getFirstSortableField indexPattern (xs ++ ys) =
      match getFirstSortableField indexPattern xs with
      | VUndefined => getFirstSortableField indexPattern ys
      | found => found
      end.
Proof.
  intros indexPattern xs ys. unfold getFirstSortableField. cbn zeta.
  rewrite List.filter_app. apply firstElement_app.
Qed.

(** X2.  A field that is returned is one of the candidates and is a meta
    field or a field the schema marks sortable; it is selected again
    whenever it leads a candidate list, in particular on its own. *)
Theorem getFirstSortableField_selected :
  ∀ (indexPattern : IndexPattern) (fieldNames : list string)
    (name : string) (others : list string),
    getFirstSortableField indexPattern fieldNames = VStr name →
    name ∈ fieldNames
    ∧ qualifies indexPattern name
    ∧ getFirstSortableField indexPattern [name] = VStr name
    ∧ getFirstSortableField indexPattern (name :: others) = VStr name.
Proof.
  intros indexPattern fieldNames name others Hfound.
  unfold getFirstSortableField in Hfound. cbn zeta in Hfound.
  apply first_filter_found in Hfound
    as (before & after & -> & Hname & _).
  split; [| split; [by apply isSortableName_qualifies |]].
  - apply elem_of_app. right. apply list_elem_of_here.
  - unfold getFirstSortableField. cbn [List.filter]. rewrite Hname.
    split; reflexivity.
Qed.

Lemma getFirstSortableField_selected_witness :
  "b" ∈ ["a"; "b"; "_doc"]
  ∧ qualifies exampleSchema "b"
  ∧ getFirstSortableField exampleSchema ["b"] = VStr "b"
  ∧ getFirstSortableField exampleSchema ["b"; "a"] = VStr "b".
Proof.
  apply (getFirstSortableField_selected
           exampleSchema ["a"; "b"; "_doc"] "b" ["a"]).
  reflexivity.
Defined.

(** X3.  When one of the candidates is a meta field, a field is found
    whatever the schema holds: the result is never [undefined], and it is
    one of the candidates. *)
Theorem getFirstSortableField_meta_candidate :
  ∀ (indexPattern : IndexPattern) (fieldNames : list string)
    (meta : string),
    meta ∈ META_FIELD_NAMES →
    meta ∈ fieldNames →
    ∃ name,
      getFirstSortableField indexPattern fieldNames = VStr name
      ∧ name ∈ fieldNames.
Proof.
  intros indexPattern fieldNames meta Hmeta Hin.
  assert (isSortableName indexPattern meta = true) as Hsortable.
  { apply isSortableName_qualifies. by left. }
  unfold getFirstSortableField. cbn zeta.
  assert (meta ∈ List.filter (isSortableName indexPattern) fieldNames)
    as Hkept.
  { apply list_elem_of_In, List.filter_In.
    split; [by apply list_elem_of_In | exact Hsortable]. }
  destruct (List.filter (isSortableName indexPattern) fieldNames)
    as [| name kept] eqn:Hfilter.
  - by apply elem_of_nil in Hkept.
  - exists name. split; [reflexivity |].
    assert (In name (List.filter (isSortableName indexPattern) fieldNames))
      as Hname by (rewrite Hfilter; by left).
    apply List.filter_In in Hname as [Hname _].
    by apply list_elem_of_In.
Qed.

Lemma getFirstSortableField_meta_candidate_witness :
  ∃ name,
    getFirstSortableField {| byName := ∅ |} ["@timestamp"; "_doc"]
    = VStr name
    ∧ name ∈ ["@timestamp"; "_doc"].
Proof.
  apply (getFirstSortableField_meta_candidate
           {| byName := ∅ |} ["@timestamp"; "_doc"] "_doc").
  - unfold META_FIELD_NAMES. set_solver.
  - set_solver.
Defined.

(** X4.  Schema entries for names that are not candidates, and schema
    entries for meta fields, have no influence: adding, replacing or
    removing such an entry leaves the result unchanged. *)
Theorem getFirstSortableField_irrelevant_entry :
  ∀ (indexPattern : IndexPattern) (fieldNames : list string)
    (key : string) (field : Field),
    key ∉ fieldNames ∨ key ∈ META_FIELD_NAMES →
    getFirstSortableField
      {| byName := <[key := field]> (byName indexPattern) |} fieldNames
    = getFirstSortableField indexPattern fieldNames
    ∧ getFirstSortableField
        {| byName := delete key (byName indexPattern) |} fieldNames
      = getFirstSortableField indexPattern fieldNames.
Proof.
  intros indexPattern fieldNames key field Hkey.
  split; apply getFirstSortableField_ext; intros name Hin;
    unfold isSortableName; cbn [byName];
    destruct (decide (key = name)) as [-> | Hne].
  - destruct Hkey as [Hout | Hmeta]; [contradiction |].
    apply includes_true in Hmeta. rewrite Hmeta. reflexivity.
  - rewrite lookup_insert_ne by exact Hne. reflexivity.
  - destruct Hkey as [Hout | Hmeta]; [contradiction |].
    apply includes_true in Hmeta. rewrite Hmeta. reflexivity.
  - rewrite lookup_delete_ne by exact Hne. reflexivity.
Qed.

Lemma getFirstSortableField_irrelevant_entry_witness :
  getFirstSortableField
    {| byName := <["_doc" := {| sortable := false |}]>
                   (byName exampleSchema) |} ["a"; "_doc"]
  = getFirstSortableField exampleSchema ["a"; "_doc"]
  ∧ getFirstSortableField
      {| byName := delete "_doc" (byName exampleSchema) |} ["a"; "_doc"]
    = getFirstSortableField exampleSchema ["a"; "_doc"].
Proof.
  apply (getFirstSortableField_irrelevant_entry
           exampleSchema ["a"; "_doc"] "_doc" {| sortable := false |}).
  right. unfold META_FIELD_NAMES. set_solver.
Defined.

(** X5.  An entry whose sortable flag is off counts exactly like a
    missing entry: the result with the entry present equals the result
    with the entry removed. *)
Theorem getFirstSortableField_unsortable_as_missing :
  ∀ (indexPattern : IndexPattern) (fieldNames : list string)
    (key : string) (field : Field),
    sortable field = false →
    getFirstSortableField
      {| byName := <[key := field]> (byName indexPattern) |} fieldNames
    = getFirstSortableField
        {| byName := delete key (byName indexPattern) |} fieldNames.
Proof.
  intros indexPattern fieldNames key field Hflag.
  apply getFirstSortableField_ext. intros name Hin.
  unfold isSortableName. cbn [byName].
  destruct (decide (key = name)) as [-> | Hne].
  - rewrite lookup_insert_eq, lookup_delete_eq. unfold orElse.
    cbn [default from_option id sortable]. rewrite Hflag. reflexivity.
  - rewrite lookup_insert_ne, lookup_delete_ne by exact Hne. reflexivity.
Qed.

Lemma getFirstSortableField_unsortable_as_missing_witness :
  getFirstSortableField
    {| byName := <["b" := {| sortable := false |}]>
                   (byName exampleSchema) |} ["a"; "b"]
  = getFirstSortableField
      {| byName := delete "b" (byName exampleSchema) |} ["a"; "b"].
Proof.
  apply (getFirstSortableField_unsortable_as_missing
           exampleSchema ["a"; "b"] "b" {| sortable := false |}).
  reflexivity.
Defined.

(** X6.  A candidate that is neither a meta field nor marked sortable by
    the schema can be dropped from the candidate list, wherever it
    stands, without changing the result. *)
Theorem getFirstSortableField_drop_unsortable :
  ∀ (indexPattern : IndexPattern) (before after : list string)
    (name : string),
    ¬ qualifies indexPattern name →
    getFirstSortableField indexPattern (before ++ name :: after)
    = getFirstSortableField indexPattern (before ++ after).
Proof.
  intros indexPattern before after name Hnot.
  apply isSortableName_not_qualifies in Hnot.
  unfold getFirstSortableField. cbn zeta.
  rewrite !List.filter_app. cbn [List.filter]. rewrite Hnot. reflexivity.
Qed.

Lemma getFirstSortableField_drop_unsortable_witness :
  getFirstSortableField exampleSchema (["ghost"] ++ "a" :: ["b"])
  = getFirstSortableField exampleSchema (["ghost"] ++ ["b"]).
Proof.
  apply (getFirstSortableField_drop_unsortable
           exampleSchema ["ghost"] ["b"] "a").
  intros [Hmeta | (field & Hentry & Hflag)].
  - unfold META_FIELD_NAMES in Hmeta.
    repeat (apply elem_of_cons in Hmeta as [Hmeta | Hmeta];
            [discriminate |]).
    by apply elem_of_nil in Hmeta.
  - vm_compute in Hentry. injection Hentry as <-. discriminate.
Defined.


(* ===================================================================== *)
(** * The lodash helpers, in closed form *)
(* ===================================================================== *)

(** The copy loop drops a primitive [__proto__], copies every other
    property, and replaces the prototype otherwise; the order in which the
    keys are visited does not matter. *)
Lemma copyProps_spec (source result : gmap string value) :
  copyProps source result =
    if keepsPrototype source
    then Some (delete "__proto__" source ∪ result)
    else None.
Proof.
  unfold copyProps.
  apply (map_fold_weak_ind
           (λ acc m, acc = if keepsPrototype m
                           then Some (delete "__proto__" m ∪ result)
                           else None)).
  - unfold keepsPrototype. rewrite lookup_empty, delete_empty.
    rewrite (left_id_L ∅ (∪) result). reflexivity.
  - intros key val m acc Hfresh ->. unfold setProp, keepsPrototype.
    destruct (decide (key = "__proto__")) as [-> | Hkey].
    + rewrite Hfresh, lookup_insert_eq, delete_insert_eq.
      rewrite bool_decide_eq_true_2 by reflexivity.
      cbn [mbind option_bind]. destruct (replacesPrototype val); reflexivity.
    + rewrite lookup_insert_ne by exact Hkey.
      rewrite bool_decide_eq_false_2 by exact Hkey.
      destruct (m !! "__proto__") as [p |]; cbn [negb];
        try destruct (replacesPrototype p); cbn [negb mbind option_bind];
        try reflexivity;
        rewrite delete_insert_ne by congruence;
        rewrite insert_union_l; reflexivity.
Qed.

(** [_.assign({}, o, {order: r})] is [o] with [order] set to [r], less a
    primitive [__proto__]. *)
Lemma assign_order (o : gmap string value) (r : value) :
  assign ∅ [o; {[ "order" := r ]}] =
    if keepsPrototype o
    then Some (<["order" := r]> (delete "__proto__" o))
    else None.
Proof.
  unfold assign. cbn [foldl mbind option_bind].
  rewrite (copyProps_spec o ∅). destruct (keepsPrototype o); [| reflexivity].
  cbn [mbind option_bind]. rewrite copyProps_spec.
  unfold keepsPrototype at 1. rewrite lookup_singleton_ne by discriminate.
  rewrite (right_id_L ∅ (∪)), delete_singleton_ne by discriminate.
  rewrite <- insert_union_singleton_l. reflexivity.
Qed.

Lemma mapValues_spec (f : value → option value) (o : gmap string value) :
  mapValuesResult f o (mapValues f o).
Proof.
  unfold mapValues. apply (map_fold_weak_ind (λ acc m, mapValuesResult f m acc)).
  - cbn [mapValuesResult]. split; [| split; [| split]].
    + intros key val Hlook. by rewrite lookup_empty in Hlook.
    + intros val mapped Hlook. by rewrite lookup_empty in Hlook.
    + apply lookup_empty.
    + intros key _. rewrite !lookup_empty. reflexivity.
  - intros key val m acc Hfresh IH.
    destruct acc as [result |]; cbn [mapValuesResult mbind option_bind] in *.
    + destruct IH as (Hall & Hproto & Hnone & Hlook).
      destruct (f val) as [mapped |] eqn:Hval; cbn [mbind option_bind].
      * unfold setProp.
        destruct (decide (key = "__proto__")) as [-> | Hkey].
        -- rewrite bool_decide_eq_true_2 by reflexivity.
           destruct (replacesPrototype mapped) eqn:Hrep;
             cbn [mapValuesResult].
           ++ exists "__proto__", val. rewrite lookup_insert_eq.
              split; [reflexivity |]. right. split; [reflexivity |].
              exists mapped. split; [exact Hval | exact Hrep].
           ++ split; [| split; [| split]].
              ** intros k v Hk. apply lookup_insert_Some in Hk
                   as [[_ <-] | [_ Hk]]; [by rewrite Hval | by eapply Hall].
              ** intros v x Hv Hx. rewrite lookup_insert_eq in Hv.
                 injection Hv as <-. congruence.
              ** exact Hnone.
              ** intros k Hk. rewrite lookup_insert_ne by congruence.
                 by apply Hlook.
        -- rewrite bool_decide_eq_false_2 by exact Hkey.
           cbn [mapValuesResult]. split; [| split; [| split]].
           ++ intros k v Hk. apply lookup_insert_Some in Hk
                as [[_ <-] | [_ Hk]]; [by rewrite Hval | by eapply Hall].
           ++ intros v x Hv. rewrite lookup_insert_ne in Hv by exact Hkey.
              by apply Hproto.
           ++ rewrite lookup_insert_ne by exact Hkey. exact Hnone.
           ++ intros k Hk. destruct (decide (key = k)) as [<- | Hne].
              ** rewrite !lookup_insert_eq. cbn [mbind option_bind].
                 by rewrite Hval.
              ** rewrite !lookup_insert_ne by exact Hne. by apply Hlook.
      * cbn [mapValuesResult]. exists key, val.
        rewrite lookup_insert_eq. split; [reflexivity | by left].
    + destruct IH as (k & v & Hk & Hbad). exists k, v. split; [| exact Hbad].
      rewrite lookup_insert_ne; [exact Hk |]. intros <-. congruence.
Qed.

Lemma mapValues_Some (f : value → option value)
    (o result : gmap string value) :
  mapValues f o = Some result →
  (∀ key val, o !! key = Some val → is_Some (f val))
  ∧ result !! "__proto__" = None
  ∧ (∀ key, key ≠ "__proto__" → result !! key = o !! key ≫= f).
Proof.
  intros Hresult. pose proof (mapValues_spec f o) as Hspec.
  rewrite Hresult in Hspec. destruct Hspec as (Hall & _ & Hnone & Hlook).
  auto.
Qed.

(** Without an own [__proto__] key, [_.mapValues] succeeds as soon as the
    function does on every value, and the result has the keys of [o]. *)
Lemma mapValues_proto_free (f : value → option value)
    (o : gmap string value) :
  o !! "__proto__" = None →
  (∀ key val, o !! key = Some val → is_Some (f val)) →
  ∃ result, mapValues f o = Some result
            ∧ ∀ key, result !! key = o !! key ≫= f.
Proof.
  intros Hproto Hall. pose proof (mapValues_spec f o) as Hspec.
  destruct (mapValues f o) as [result |]; cbn [mapValuesResult] in Hspec.
  - destruct Hspec as (_ & _ & Hnone & Hlook). exists result.
    split; [reflexivity |]. intros key.
    destruct (decide (key = "__proto__")) as [-> | Hkey];
      [by rewrite Hnone, Hproto | by apply Hlook].
  - destruct Hspec as (key & val & Hkey & [Hbad | [-> _]]).
    + destruct (Hall key val Hkey) as [x Hx]. congruence.
    + congruence.
Qed.

(* ===================================================================== *)
(** * reverseSortDirection: the defining equation and its consequences *)
(* ===================================================================== *)

(** The definition, in the shape of the source: on a plain object, a
    copy whose [order] is the reversal of [sortDirection.order]; on
    anything else, the comparison with ['asc']. *)
Lemma reverseSortDirection_unfold (sortDirection : value) :
  reverseSortDirection sortDirection =
    if isPlainObject sortDirection then
      order ← reverseSortDirection (getProp sortDirection "order");
      VObj <$> assign ∅ [ownProps sortDirection; {[ "order" := order ]}]
    else
      Some (if strictEqualsString sortDirection "asc" then VStr "desc"
            else VStr "asc").
Proof.
  destruct sortDirection as [| | b | n | s | elems | o].
  7: { cbn [reverseSortDirection isPlainObject]. unfold getProp.
       cbn [ownProps]. rewrite lookup_fmap.
       destruct (o !! "order"); reflexivity. }
  all: reflexivity.
Qed.

Lemma reverseSortDirection_object (o : gmap string value) :
  reverseSortDirection (VObj o) =
    order ← reverseSortDirection (getProp (VObj o) "order");
    if keepsPrototype o
    then Some (VObj (<["order" := order]> (delete "__proto__" o)))
    else None.
Proof.
  rewrite (reverseSortDirection_unfold (VObj o)).
  cbn [isPlainObject ownProps].
  destruct (reverseSortDirection (getProp (VObj o) "order")) as [order |];
    cbn [mbind option_bind]; [| reflexivity].
  rewrite assign_order. destruct (keepsPrototype o); reflexivity.
Qed.

(** On an object without an own [__proto__] key, the copy is the object
    with [order] replaced. *)
Lemma reverseSortDirection_proto_free (o : gmap string value)
    (order : value) :
  o !! "__proto__" = None →
  reverseSortDirection (getProp (VObj o) "order") = Some order →
  reverseSortDirection (VObj o) = Some (VObj (<["order" := order]> o)).
Proof.
  intros Hproto Horder. rewrite reverseSortDirection_object, Horder.
  cbn [mbind option_bind]. unfold keepsPrototype. rewrite Hproto.
  rewrite delete_id by exact Hproto. reflexivity.
Qed.

Lemma reverseSortDirection_not_object (v : value) :
  isPlainObject v = false →
  reverseSortDirection v
  = Some (if strictEqualsString v "asc" then VStr "desc" else VStr "asc").
Proof. intros Hv. rewrite reverseSortDirection_unfold, Hv. reflexivity. Qed.

Lemma strictEqualsString_true (v : value) (lit : string) :
  strictEqualsString v lit = true ↔ v = VStr lit.
Proof.
  destruct v; simpl; try (split; [discriminate | by intros [=]]).
  rewrite bool_decide_eq_true. split; [by intros -> | by intros [=]].
Qed.

Lemma plainDirection_twice (v : value) :
  plainDirection v → reverseSortDirectionTwice v = Some v.
Proof. by intros [-> | ->]. Qed.

Lemma getProp_insert_order (o : gmap string value) (r : value) :
  getProp (VObj (<["order" := r]> o)) "order" = r.
Proof.
  unfold getProp. cbn [ownProps]. rewrite lookup_insert_eq. reflexivity.
Qed.

Lemma orderDepth_object (o : gmap string value) :
  orderDepth (VObj o) = S (orderDepth (getProp (VObj o) "order")).
Proof.
  cbn [orderDepth]. unfold getProp. cbn [ownProps]. rewrite lookup_fmap.
  destruct (o !! "order"); reflexivity.
Qed.


(** Induction along the chain [v], [v.order], [v.order.order], ...: a
    property of every value that is not a plain object, carried from
    [o.order] to [o], holds of every value. *)
Lemma order_chain_ind (P : value → Prop) :
  (∀ v, isPlainObject v = false → P v) →
  (∀ o, P (getProp (VObj o) "order") → P (VObj o)) →
  ∀ v, P v.
Proof.
  intros Hleaf Hobject v.
  remember (orderDepth v) as depth eqn:Hdepth. revert v Hdepth.
  induction depth as [| depth IH]; intros v Hdepth;
    destruct v as [| | b | n | s | elems | o];
    try (apply Hleaf; reflexivity);
    rewrite orderDepth_object in Hdepth.
  - discriminate Hdepth.
  - apply Hobject, IH. congruence.
Qed.

(** The recursion of the source ends on every value: one call more than
    the value has plain objects nested under [order] is enough, and what
    the calls return is what the structural definition gives. *)
Lemma reverseSortDirectionFuel_enough (fuel : nat) :
  ∀ v : value,
    orderDepth v < fuel →
    reverseSortDirectionFuel fuel v = Some (reverseSortDirection v).
Proof.
  induction fuel as [| fuel IH]; intros v Hdepth; [lia |].
  cbn [reverseSortDirectionFuel]. rewrite (reverseSortDirection_unfold v).
  destruct v as [| | b | n | s | elems | o]; try reflexivity.
  cbn [isPlainObject]. rewrite orderDepth_object in Hdepth.
  rewrite IH by lia. reflexivity.
Qed.

(** With fewer calls the recursion does not finish. *)
Lemma reverseSortDirectionFuel_short (fuel : nat) :
  ∀ v, fuel ≤ orderDepth v → reverseSortDirectionFuel fuel v = None.
Proof.
  induction fuel as [| fuel IH]; intros v Hdepth; [reflexivity |].
  destruct v as [| | b | n | s | elems | o];
    try (cbn [orderDepth] in Hdepth; lia).
  rewrite orderDepth_object in Hdepth.
  cbn [reverseSortDirectionFuel isPlainObject].
  rewrite IH by lia. reflexivity.
Qed.

(** C4.  On every value that is not a plain object, [reverseSortDirection]
    returns ['desc'] if and only if the value is the token ['asc'], and
    ['asc'] for every other such value: for ['desc'], for [undefined], for
    [null], and for a malformed token such as ['ASC'].  The result is
    always one of the two tokens. *)
Theorem token_reversal_desc_iff_asc :
  ∀ v : value,
    isPlainObject v = false →
    (reverseSortDirection v = Some (VStr "desc") ↔ v = VStr "asc")
    ∧ (v ≠ VStr "asc" → reverseSortDirection v = Some (VStr "asc"))
    ∧ (∃ token, reverseSortDirection v = Some token ∧ plainDirection token)
    ∧ reverseSortDirection (VStr "desc") = Some (VStr "asc")
    ∧ reverseSortDirection VUndefined = Some (VStr "asc")
    ∧ reverseSortDirection VNull = Some (VStr "asc")
    ∧ reverseSortDirection (VStr "ASC") = Some (VStr "asc").
Proof.
  intros v Hv. rewrite (reverseSortDirection_not_object v Hv).
  destruct (strictEqualsString v "asc") eqn:Heq.
  - apply strictEqualsString_true in Heq as ->.
    split; [split; reflexivity |]. split; [intros Hne; contradiction |].
    split; [exists (VStr "desc"); split; [reflexivity | by right] |].
    repeat split.
  - assert (v ≠ VStr "asc") as Hne.
    { intros Hasc. apply strictEqualsString_true in Hasc. congruence. }
    split; [split; [discriminate | contradiction] |].
    split; [reflexivity |].
    split; [exists (VStr "asc"); split; [reflexivity | by left] |].
    repeat split.
Qed.

Lemma token_reversal_desc_iff_asc_witness :
  reverseSortDirection (VNum 7) = Some (VStr "desc") ↔ VNum 7 = VStr "asc".
Proof.
  apply (token_reversal_desc_iff_asc (VNum 7)). reflexivity.
Defined.




Lemma mapValues_singleton (f : value → option value) (key : string)
    (val : value) :
  mapValues f {[ key := val ]} = mapped ← f val; setProp key mapped ∅.
Proof. unfold mapValues. rewrite map_fold_singleton. reflexivity. Qed.

(** [_.mapValues] on a one-key object whose key is not [__proto__]. *)
Lemma mapValues_singleton_plain (f : value → option value) (key : string)
    (val mapped : value) :
  key ≠ "__proto__" →
  f val = Some mapped →
  mapValues f {[ key := val ]} = Some {[ key := mapped ]}.
Proof.
  intros Hkey Hval. rewrite mapValues_singleton, Hval.
  cbn [mbind option_bind]. unfold setProp.
  rewrite bool_decide_eq_false_2 by exact Hkey.
  rewrite insert_empty. reflexivity.
Qed.







(* ===================================================================== *)
(** * reverseSortDirective *)
(* ===================================================================== *)

(** On string form the first reversal already leaves string form, for
    the score field and for every other field name but [__proto__]
    alike. *)
Lemma string_directive_reversed_twice (s : string) :
  s ≠ "__proto__" →
  reverseSortDirectiveTwice (VStr s) =
    Some (VObj {[ s := if bool_decide (s = "_score") then VStr "desc"
                       else VStr "asc" ]}).
Proof.
  intros Hs. unfold reverseSortDirectiveTwice.
  cbn [reverseSortDirective mbind option_bind].
  rewrite (mapValues_singleton_plain _ _ _
             (if bool_decide (s = "_score") then VStr "desc"
              else VStr "asc")); [reflexivity | exact Hs |].
  destruct (bool_decide (s = "_score")); reflexivity.
Qed.

(** Reversing an object-form directive without an own [__proto__] key
    twice, when reversing each of its values twice gives the value
    back. *)
Lemma reverseSortDirective_twice_pointwise (o : gmap string value) :
  o !! "__proto__" = None →
  map_Forall (λ _ v, reverseSortDirectionTwice v = Some v) o →
  reverseSortDirectiveTwice (VObj o) = Some (VObj o).
Proof.
  intros Hproto Hvalues. unfold reverseSortDirectiveTwice.
  cbn [reverseSortDirective].
  destruct (mapValues_proto_free reverseSortDirection o Hproto)
    as (once & -> & Honce).
  { intros key val Hlook. specialize (Hvalues key val Hlook).
    unfold reverseSortDirectionTwice in Hvalues.
    destruct (reverseSortDirection val); [by eexists | discriminate]. }
  cbn [fmap option_fmap option_map mbind option_bind reverseSortDirective].
  assert (∀ key, once !! key ≫= reverseSortDirection = o !! key) as Hback.
  { intros key. rewrite Honce.
    destruct (o !! key) as [val |] eqn:Hlook; [| reflexivity].
    exact (Hvalues key val Hlook). }
  destruct (mapValues_proto_free reverseSortDirection once)
    as (twice & -> & Htwice).
  { rewrite Honce, Hproto. reflexivity. }
  { intros key val Hlook. specialize (Hback key). rewrite Hlook in Hback.
    cbn [mbind option_bind] in Hback.
    destruct (reverseSortDirection val); [by eexists |].
    rewrite Honce in Hlook.
    destruct (o !! key); discriminate. }
  cbn [fmap option_fmap option_map]. do 2 f_equal.
  apply map_eq. intros key. rewrite Htwice. apply Hback.
Qed.

(** C3.  A string-form directive becomes a one-key object that maps the
    field name to a direction: ['desc'] for every field name other than
    ['_score'], ['asc'] for ['_score']. *)
Theorem string_directive_to_one_key_object :
  ∀ s : string,
    ∃ direction,
      reverseSortDirective (VStr s) = Some (VObj {[ s := VStr direction ]})
      ∧ (∀ result, reverseSortDirective (VStr s) = Some result →
           dom (ownProps result) = {[ s ]})
      ∧ (s ≠ "_score" → direction = "desc")
      ∧ (s = "_score" → direction = "asc").
Proof.
  intros s. cbn [reverseSortDirective].
  destruct (bool_decide (s = "_score")) eqn:Hscore.
  - apply bool_decide_eq_true in Hscore. exists "asc".
    split; [reflexivity |]. split.
    { intros result [= <-]. apply dom_singleton_L. }
    split; [intros Hne; contradiction | reflexivity].
  - apply bool_decide_eq_false in Hscore. exists "desc".
    split; [reflexivity |]. split.
    { intros result [= <-]. apply dom_singleton_L. }
    split; [reflexivity | intros Heq; contradiction].
Qed.

Lemma string_directive_to_one_key_object_witness :
  reverseSortDirective (VStr "@timestamp")
    = Some (VObj {[ "@timestamp" := VStr "desc" ]})
  ∧ reverseSortDirective (VStr "_score")
    = Some (VObj {[ "_score" := VStr "asc" ]}).
Proof.
  split.
  - destruct (string_directive_to_one_key_object "@timestamp")
      as (direction & Hresult & _ & Hother & _).
    rewrite Hresult, Hother; [reflexivity | discriminate].
  - destruct (string_directive_to_one_key_object "_score")
      as (direction & Hresult & _ & _ & Hscore).
    rewrite Hresult, Hscore; reflexivity.
Defined.




(** C2, as the code has it.  On an object-form directive without an own
    [__proto__] key, all of whose values are plain direction tokens,
    reversing twice gives back the directive.  The bare string ['_score']
    is not given back: the first reversal promotes it to the object
    [{_score: 'asc'}], and the second yields [{_score: 'desc'}]. *)
Theorem object_directive_reversal_involutive :
  ∀ o : gmap string value,
    o !! "__proto__" = None →
    map_Forall (λ _ v, plainDirection v) o →
    reverseSortDirectiveTwice (VObj o) = Some (VObj o)
    ∧ reverseSortDirective (VStr "_score")
      = Some (VObj {[ "_score" := VStr "asc" ]})
    ∧ reverseSortDirectiveTwice (VStr "_score")
      = Some (VObj {[ "_score" := VStr "desc" ]})
    ∧ reverseSortDirectiveTwice (VStr "_score") ≠ Some (VStr "_score").
Proof.
  intros o Hproto Htokens. split; [| split; [| split]].
  - apply reverseSortDirective_twice_pointwise; [exact Hproto |].
    intros key v Hlook. apply plainDirection_twice.
    exact (Htokens key v Hlook).
  - reflexivity.
  - apply (string_directive_reversed_twice "_score"). discriminate.
  - rewrite (string_directive_reversed_twice "_score") by discriminate.
    discriminate.
Qed.

Lemma object_directive_reversal_involutive_witness :
  reverseSortDirectiveTwice
    (VObj {[ "@timestamp" := VStr "desc"; "_doc" := VStr "asc" ]})
  = Some (VObj {[ "@timestamp" := VStr "desc"; "_doc" := VStr "asc" ]}).
Proof.
  apply (object_directive_reversal_involutive
           {[ "@timestamp" := VStr "desc"; "_doc" := VStr "asc" ]}).
  - reflexivity.
  - intros key v Hlook.
    apply lookup_insert_Some in Hlook as [[_ <-] | [_ Hlook]];
      [by right |].
    apply lookup_singleton_Some in Hlook as [_ <-]. by left.
Defined.

(** C2 as stated fails on a directive that owns a [__proto__] key: every
    value of [{"__proto__": 'asc', f: 'asc'}] is a plain token, yet
    reversing it twice gives [{f: 'asc'}]. *)
Lemma object_directive_twice_loses_proto_key :
  map_Forall (λ _ v, plainDirection v)
    ({[ "__proto__" := VStr "asc"; "f" := VStr "asc" ]}
       : gmap string value)
  ∧ reverseSortDirectiveTwice
      (VObj {[ "__proto__" := VStr "asc"; "f" := VStr "asc" ]})
    = Some (VObj {[ "f" := VStr "asc" ]})
  ∧ reverseSortDirectiveTwice
      (VObj {[ "__proto__" := VStr "asc"; "f" := VStr "asc" ]})
    ≠ Some (VObj {[ "__proto__" := VStr "asc"; "f" := VStr "asc" ]}).
Proof.
  split.
  { intros key v Hlook.
    apply lookup_insert_Some in Hlook as [[_ <-] | [_ Hlook]];
      [by left |].
    apply lookup_singleton_Some in Hlook as [_ <-]. by left. }
  assert (reverseSortDirectiveTwice
            (VObj {[ "__proto__" := VStr "asc"; "f" := VStr "asc" ]})
          = Some (VObj {[ "f" := VStr "asc" ]})) as Hresult
    by (vm_compute; reflexivity).
  split; [exact Hresult |]. rewrite Hresult. intros Heq.
  apply (f_equal (λ r, ownProps (default VUndefined r) !! "__proto__"))
    in Heq.
  vm_compute in Heq. discriminate Heq.
Qed.




(* ===================================================================== *)
(** * reverseSortDirection along the chain of [order] values *)
(* ===================================================================== *)

Lemma validDirection_object (o : gmap string value) :
  validDirection (VObj o)
  = match o !! "order" with
    | Some inner => validDirection inner
    | None => false
    end.
Proof.
  cbn [validDirection]. rewrite lookup_fmap.
  destruct (o !! "order"); reflexivity.
Qed.

Lemma protoFreeChain_object (o : gmap string value) :
  protoFreeChain (VObj o)
  = match o !! "__proto__" with
    | None => protoFreeChain (getProp (VObj o) "order")
    | Some _ => false
    end.
Proof.
  cbn [protoFreeChain]. unfold getProp. cbn [ownProps].
  rewrite lookup_fmap.
  destruct (o !! "__proto__"); [reflexivity |].
  destruct (o !! "order"); reflexivity.
Qed.

(** A result of a reversal is a well-formed direction without own
    [__proto__] keys along its chain, nested as deep as the argument. *)
Lemma reverseSortDirection_result :
  ∀ v reversed,
    reverseSortDirection v = Some reversed →
    validDirection reversed = true
    ∧ protoFreeChain reversed = true
    ∧ orderDepth reversed = orderDepth v.
Proof.
  apply (order_chain_ind
           (λ v, ∀ reversed, reverseSortDirection v = Some reversed →
                 validDirection reversed = true
                 ∧ protoFreeChain reversed = true
                 ∧ orderDepth reversed = orderDepth v)).
  - intros v Hv reversed. rewrite (reverseSortDirection_not_object v Hv).
    intros [= <-].
    destruct v as [| | b | n | s | elems | o]; try discriminate;
      destruct (strictEqualsString _ "asc"); repeat split.
  - intros o IH reversed. rewrite reverseSortDirection_object.
    destruct (reverseSortDirection (getProp (VObj o) "order"))
      as [order |]; cbn [mbind option_bind]; [| discriminate].
    destruct (keepsPrototype o); [| discriminate]. intros [= <-].
    destruct (IH order eq_refl) as (Hvalid & Hfree & Hdepth).
    rewrite validDirection_object, protoFreeChain_object.
    rewrite !orderDepth_object, getProp_insert_order.
    rewrite lookup_insert_eq, lookup_insert_ne by discriminate.
    rewrite lookup_delete_eq, Hdepth. auto.
Qed.

(** Without own [__proto__] keys along the chain, the reversal keeps the
    standard prototype. *)
Lemma reverseSortDirection_proto_free_chain :
  ∀ v, protoFreeChain v = true → is_Some (reverseSortDirection v).
Proof.
  apply (order_chain_ind
           (λ v, protoFreeChain v = true →
                 is_Some (reverseSortDirection v))).
  - intros v Hv _. rewrite (reverseSortDirection_not_object v Hv).
    by eexists.
  - intros o IH. rewrite protoFreeChain_object.
    destruct (o !! "__proto__") eqn:Hproto; [discriminate |].
    intros Hchain. destruct (IH Hchain) as [order Horder].
    rewrite (reverseSortDirection_proto_free o order Hproto Horder).
    by eexists.
Qed.

(** On a well-formed direction without own [__proto__] keys along its
    chain, reversing twice is the identity. *)
Lemma reverseSortDirection_twice_valid :
  ∀ v, validDirection v = true → protoFreeChain v = true →
       reverseSortDirectionTwice v = Some v.
Proof.
  apply (order_chain_ind
           (λ v, validDirection v = true → protoFreeChain v = true →
                 reverseSortDirectionTwice v = Some v)).
  - intros v Hv Hvalid _.
    destruct v as [| | b | n | s | elems | o]; try discriminate.
    cbn [validDirection] in Hvalid.
    apply orb_true_iff in Hvalid as [Hs | Hs];
      apply bool_decide_eq_true in Hs; subst s; reflexivity.
  - intros o IH. rewrite validDirection_object, protoFreeChain_object.
    destruct (o !! "__proto__") eqn:Hproto; [intros _; discriminate |].
    unfold getProp in *. cbn [ownProps] in *.
    destruct (o !! "order") as [inner |] eqn:Horder; [| discriminate].
    cbn [default from_option id] in *. intros Hvalid Hchain.
    specialize (IH Hvalid Hchain). unfold reverseSortDirectionTwice in *.
    destruct (reverseSortDirection inner) as [once |] eqn:Honce;
      [| discriminate].
    cbn [mbind option_bind] in IH.
    rewrite (reverseSortDirection_proto_free o once Hproto).
    2: { unfold getProp. cbn [ownProps]. rewrite Horder. exact Honce. }
    cbn [mbind option_bind].
    rewrite (reverseSortDirection_proto_free _ inner).
    + rewrite insert_insert_eq, insert_id by exact Horder. reflexivity.
    + rewrite lookup_insert_ne by discriminate. exact Hproto.
    + rewrite getProp_insert_order. exact IH.
Qed.

(** A reversal never returns its argument. *)
Lemma reverseSortDirection_moves :
  ∀ v, reverseSortDirection v ≠ Some v.
Proof.
  apply order_chain_ind.
  - intros v Hv. rewrite (reverseSortDirection_not_object v Hv).
    destruct (strictEqualsString v "asc") eqn:Hasc.
    + apply strictEqualsString_true in Hasc. subst v. discriminate.
    + intros [= Heq]. symmetry in Heq.
      apply strictEqualsString_true in Heq. congruence.
  - intros o IH. rewrite reverseSortDirection_object.
    destruct (reverseSortDirection (getProp (VObj o) "order"))
      as [order |] eqn:Horder; cbn [mbind option_bind]; [| discriminate].
    destruct (keepsPrototype o); [| discriminate]. intros [= Heq].
    assert (o !! "order" = Some order) as Hlook.
    { rewrite <- Heq at 1. apply lookup_insert_eq. }
    apply IH. unfold getProp. cbn [ownProps]. rewrite Hlook. reflexivity.
Qed.

(** X7.  The recursion of [reverseSortDirection] goes exactly one call
    deeper than the value has plain objects nested under [order]: with
    fewer calls it does not finish, with that many it returns what the
    function returns; and a reversed value is nested just as deep. *)
Theorem reverseSortDirection_call_depth :
  ∀ (fuel : nat) (v : value),
    (reverseSortDirectionFuel fuel v = None ↔ fuel ≤ orderDepth v)
    ∧ (reverseSortDirectionFuel fuel v = Some (reverseSortDirection v)
       ↔ orderDepth v < fuel)
    ∧ (∀ reversed, reverseSortDirection v = Some reversed →
         orderDepth reversed = orderDepth v).
Proof.
  intros fuel v. split; [| split].
  - split; [| apply reverseSortDirectionFuel_short].
    intros Hnone. destruct (decide (fuel ≤ orderDepth v)) as [| Hlt];
      [assumption |].
    rewrite reverseSortDirectionFuel_enough in Hnone by lia.
    discriminate Hnone.
  - split; [| apply reverseSortDirectionFuel_enough].
    intros Hsome. destruct (decide (orderDepth v < fuel)) as [| Hle];
      [assumption |].
    rewrite reverseSortDirectionFuel_short in Hsome by lia.
    discriminate Hsome.
  - intros reversed Hreversed.
    by destruct (reverseSortDirection_result v reversed Hreversed)
      as (_ & _ & Hdepth).
Qed.

(** X8.  Reversing a direction value twice gives the value back exactly
    when it is well formed (one of the two tokens, or a plain object
    whose [order] is present and well formed) and no plain object along
    its [order] chain owns a [__proto__] key. *)
Theorem reverseSortDirection_involutive_iff_valid :
  ∀ v : value,
    reverseSortDirectionTwice v = Some v
    ↔ validDirection v = true ∧ protoFreeChain v = true.
Proof.
  intros v. split.
  - unfold reverseSortDirectionTwice.
    destruct (reverseSortDirection v) as [once |];
      cbn [mbind option_bind]; [| discriminate].
    intros Hback.
    by destruct (reverseSortDirection_result once v Hback)
      as (Hvalid & Hfree & _).
  - intros [Hvalid Hfree]. by apply reverseSortDirection_twice_valid.
Qed.

(** X9.  A value without own [__proto__] keys along its [order] chain has
    a reversal with the standard prototype.  Whatever the input, such a
    reversal is a well-formed direction without own [__proto__] keys
    along its chain, and reversing it twice gives it back. *)
Theorem reverseSortDirection_normalizes :
  ∀ v : value,
    (protoFreeChain v = true → is_Some (reverseSortDirection v))
    ∧ (∀ reversed,
          reverseSortDirection v = Some reversed →
          validDirection reversed = true
          ∧ protoFreeChain reversed = true
          ∧ reverseSortDirectionTwice reversed = Some reversed).
Proof.
  intros v. split; [apply reverseSortDirection_proto_free_chain |].
  intros reversed Hreversed.
  destruct (reverseSortDirection_result v reversed Hreversed)
    as (Hvalid & Hfree & _).
  split; [exact Hvalid |]. split; [exact Hfree |].
  by apply reverseSortDirection_twice_valid.
Qed.

Lemma reverseSortDirection_normalizes_witness :
  is_Some (reverseSortDirection (VObj {[ "mode" := VStr "min" ]}))
  ∧ reverseSortDirectionTwice (VObj {[ "order" := VStr "asc" ]})
    = Some (VObj {[ "order" := VStr "asc" ]}).
Proof.
  split.
  - apply (reverseSortDirection_normalizes (VObj {[ "mode" := VStr "min" ]})).
    reflexivity.
  - apply (reverseSortDirection_normalizes (VObj {[ "__proto__" := VNum 1 ]})).
    vm_compute. reflexivity.
Defined.

(* ===================================================================== *)
(** * reverseSortDirective: round trips and fixed points *)
(* ===================================================================== *)

(** What a result of [reverseSortDirective] on a plain object looks
    like. *)
Lemma reverseSortDirective_object_Some (o : gmap string value)
    (result : value) :
  reverseSortDirective (VObj o) = Some result →
  ∃ reversed,
    result = VObj reversed
    ∧ reversed !! "__proto__" = None
    ∧ (∀ key, key ≠ "__proto__" →
         reversed !! key = o !! key ≫= reverseSortDirection)
    ∧ map_Forall (λ _ x, reverseSortDirectionTwice x = Some x) reversed.
Proof.
  cbn [reverseSortDirective].
  destruct (mapValues reverseSortDirection o) as [reversed |] eqn:Hmap;
    [| discriminate].
  intros [= <-]. apply mapValues_Some in Hmap as (_ & Hnone & Hlook).
  exists reversed. split; [reflexivity |]. split; [exact Hnone |].
  split; [exact Hlook |]. intros key x Hx.
  assert (key ≠ "__proto__") as Hkey by (intros ->; congruence).
  rewrite (Hlook key Hkey) in Hx.
  destruct (o !! key) as [val |]; [| discriminate].
  cbn [mbind option_bind] in Hx.
  destruct (reverseSortDirection_result val x Hx) as (Hvalid & Hfree & _).
  by apply reverseSortDirection_twice_valid.
Qed.

(** The result of reversing anything but a string is given back by two
    further reversals. *)
Lemma reverseSortDirective_result_stable (v result : value) :
  isString v = false →
  reverseSortDirective v = Some result →
  reverseSortDirectiveTwice result = Some result.
Proof.
  intros Hstring Hresult.
  destruct v as [| | b | n | s | elems | o]; try discriminate;
    try (injection Hresult as <-; reflexivity).
  apply reverseSortDirective_object_Some in Hresult
    as (reversed & -> & Hnone & _ & Hvalues).
  by apply reverseSortDirective_twice_pointwise.
Qed.

(** X10.  Reversing an object-form directive twice gives the directive
    back exactly when the directive owns no [__proto__] key and every one
    of its values is a well-formed direction without own [__proto__] keys
    along its [order] chain; this covers options structures as well as
    plain tokens. *)
Theorem reverseSortDirective_involutive_iff_valid :
  ∀ o : gmap string value,
    reverseSortDirectiveTwice (VObj o) = Some (VObj o)
    ↔ o !! "__proto__" = None
      ∧ map_Forall (λ _ v, validDirection v = true
                           ∧ protoFreeChain v = true) o.
Proof.
  intros o. split.
  - unfold reverseSortDirectiveTwice.
    destruct (reverseSortDirective (VObj o)) as [once |] eqn:Honce;
      cbn [mbind option_bind]; [| discriminate].
    apply reverseSortDirective_object_Some in Honce
      as (reversed & -> & _ & Hlook & _).
    intros Hback.
    apply reverseSortDirective_object_Some in Hback
      as (back & [= <-] & Hnone & Hlook' & _).
    split; [exact Hnone |]. intros key val Hval.
    assert (key ≠ "__proto__") as Hkey by (intros ->; congruence).
    specialize (Hlook key Hkey). specialize (Hlook' key Hkey).
    rewrite Hlook, Hval in Hlook'. cbn [mbind option_bind] in Hlook'.
    destruct (reverseSortDirection val) as [x |];
      cbn [mbind option_bind] in Hlook'; [| discriminate].
    symmetry in Hlook'.
    by destruct (reverseSortDirection_result x val Hlook')
      as (Hvalid & Hfree & _).
  - intros [Hproto Hvalues].
    apply reverseSortDirective_twice_pointwise; [exact Hproto |].
    intros key val Hval. destruct (Hvalues key val Hval).
    by apply reverseSortDirection_twice_valid.
Qed.

(** X11.  A result of [reverseSortDirective] is never in string form.
    For every input but the string ['__proto__'], two further reversals
    give the first result back; and for every input, the result of two
    reversals is given back by two further ones. *)
Theorem reverseSortDirective_normalizes :
  ∀ v once : value,
    reverseSortDirective v = Some once →
    isString once = false
    ∧ (v ≠ VStr "__proto__" → reverseSortDirectiveTwice once = Some once)
    ∧ (∀ twice, reverseSortDirective once = Some twice →
         reverseSortDirectiveTwice twice = Some twice).
Proof.
  intros v once Honce.
  assert (isString once = false) as Hshape.
  { destruct v as [| | b | n | s | elems | o];
      try (injection Honce as <-; reflexivity).
    apply reverseSortDirective_object_Some in Honce as (r & -> & _).
    reflexivity. }
  split; [exact Hshape |]. split.
  - intros Hv. destruct (isString v) eqn:Hstring.
    + destruct v as [| | b | n | s | elems | o]; try discriminate.
      injection Honce as <-.
      apply reverseSortDirective_twice_pointwise.
      * apply lookup_singleton_ne. congruence.
      * intros key x Hx. apply lookup_singleton_Some in Hx as [_ <-].
        destruct (bool_decide (s = "_score")); reflexivity.
    + by apply (reverseSortDirective_result_stable v).
  - intros twice. by apply reverseSortDirective_result_stable.
Qed.

Lemma reverseSortDirective_normalizes_witness :
  isString (VObj {[ "f" := VStr "desc" ]}) = false
  ∧ (VObj {[ "__proto__" := VStr "asc"; "f" := VStr "asc" ]}
       ≠ VStr "__proto__" →
     reverseSortDirectiveTwice (VObj {[ "f" := VStr "desc" ]})
     = Some (VObj {[ "f" := VStr "desc" ]}))
  ∧ (∀ twice,
        reverseSortDirective (VObj {[ "f" := VStr "desc" ]}) = Some twice →
        reverseSortDirectiveTwice twice = Some twice).
Proof.
  apply (reverseSortDirective_normalizes
           (VObj {[ "__proto__" := VStr "asc"; "f" := VStr "asc" ]})
           (VObj {[ "f" := VStr "desc" ]})).
  vm_compute. reflexivity.
Defined.

(** X12.  [reverseSortDirection] never returns its argument, and
    [reverseSortDirective] returns its argument only where there is
    nothing to reverse: on the empty object and on the values it passes
    through (neither a string nor a plain object). *)
Theorem reversal_fixed_points :
  ∀ v : value,
    reverseSortDirection v ≠ Some v
    ∧ (reverseSortDirective v = Some v
       ↔ isString v = false
         ∧ (isPlainObject v = false ∨ v = VObj ∅)).
Proof.
  intros v. split; [apply reverseSortDirection_moves |].
  destruct v as [| | b | n | s | elems | o];
    try (split; [intros _; split; [reflexivity | left; reflexivity]
                | reflexivity]).
  - split; [discriminate | intros [Hstring _]; discriminate].
  - split.
    + intros Hfixed.
      apply reverseSortDirective_object_Some in Hfixed
        as (reversed & [= <-] & Hnone & Hlook & _).
      split; [reflexivity |]. right. f_equal. apply map_empty.
      intros key. destruct (o !! key) as [x |] eqn:Hx; [| reflexivity].
      exfalso. apply (reverseSortDirection_moves x).
      assert (key ≠ "__proto__") as Hkey by (intros ->; congruence).
      specialize (Hlook key Hkey). rewrite Hx in Hlook.
      cbn [mbind option_bind] in Hlook. congruence.
    + intros [_ [Hobject | Hempty]]; [discriminate |].
      injection Hempty as ->. reflexivity.
Qed.

(** X13.  For every field name but ['__proto__'], the string form is
    shorthand for the object form with the field's default direction,
    ['desc'] for ['_score'] and ['asc'] for any other field: reversing the
    string gives what reversing that object gives, and a second reversal
    yields that object itself. *)
Theorem reverseSortDirective_string_shorthand :
  ∀ s : string,
    s ≠ "__proto__" →
    reverseSortDirective (VStr s)
    = reverseSortDirective
        (VObj {[ s := if bool_decide (s = "_score") then VStr "desc"
                      else VStr "asc" ]})
    ∧ reverseSortDirectiveTwice (VStr s)
      = Some (VObj {[ s := if bool_decide (s = "_score") then VStr "desc"
                           else VStr "asc" ]}).
Proof.
  intros s Hs. split; [| by apply string_directive_reversed_twice].
  cbn [reverseSortDirective].
  rewrite (mapValues_singleton_plain _ _ _
             (if bool_decide (s = "_score") then VStr "asc"
              else VStr "desc")); [reflexivity | exact Hs |].
  destruct (bool_decide (s = "_score")); reflexivity.
Qed.

Lemma reverseSortDirective_string_shorthand_witness :
  reverseSortDirective (VStr "_score")
  = reverseSortDirective
      (VObj {[ "_score" := if bool_decide ("_score" = "_score")
                           then VStr "desc" else VStr "asc" ]})
  ∧ reverseSortDirectiveTwice (VStr "_score")
    = Some (VObj {[ "_score" := if bool_decide ("_score" = "_score")
                                then VStr "desc" else VStr "asc" ]}).
Proof.
  apply (reverseSortDirective_string_shorthand "_score"). discriminate.
Defined.
